(** * Rank-order sort of a fixed-size sequence (sort.hpp)

    A shallow embedding of [sort<N>] and its helpers [sort_rank_l],
    [sort_rank_u] and [sort_impl].  The three arrays the routine touches
    (the caller's [list], the local [rank] and the local [response]) live in
    a store; every indexed access is checked against the array it goes to and
    is recorded, so that reading or writing out of range makes the run fail
    instead of returning a value.

    Indices and ranks are [size_t] in the source and [nat] here: the template
    arguments [I] range over [0..N-1], so [N - I - 1] does not wrap, and every
    index and every sum the routine forms is below [N] ([rank_val_lt],
    [sort_trace_in_bounds]).  Where C++ leaves the order of evaluation open
    (the operands of [+] and of the comparisons) the embedding reads from left
    to right; only the order of the recorded accesses depends on it. *)

From stdpp Require Import base list sorting.
From Stdlib Require Import ZArith Lia.

(** ** Accesses, store and the monad of the embedding *)

(** One indexed access: [list[i]], [rank[i]] or [response[i] = ...]. *)
Inductive access : Type :=
  | RdList (i : nat)
  | RdRank (i : nat)
  | WrResponse (i : nat).

Definition access_index (a : access) : nat :=
  match a with
  | RdList i => i
  | RdRank i => i
  | WrResponse i => i
  end.

(** [Atom<T>], as far as the routine uses it: the two comparison operators
    and the value that [array<Atom<T>, N> response = {}] fills the output
    with. *)
Class Atom (A : Type) : Type := {
  geb : A → A → bool;
  gtb : A → A → bool;
  atom0 : A
}.

(** The element comparison is a total preorder, and [>] is its strict
    part. *)
Class AtomOrder (A : Type) `{!Atom A} : Prop := {
  geb_total : ∀ x y : A, geb x y = true ∨ geb y x = true;
  geb_trans : ∀ x y z : A, geb x y = true → geb y z = true → geb x z = true;
  gtb_geb : ∀ x y : A, gtb x y = negb (geb y x)
}.

Record store (A : Type) : Type := Store {
  s_list : list A;
  s_rank : list nat;
  s_response : list A;
  s_trace : list access
}.
Arguments Store {A} _ _ _ _.
Arguments s_list {A} _.
Arguments s_rank {A} _.
Arguments s_response {A} _.
Arguments s_trace {A} _.

Definition M (A X : Type) : Type := store A → option (X * store A).

Global Instance M_ret {A} : MRet (M A) := λ X x s, Some (x, s).

Global Instance M_bind {A} : MBind (M A) := λ X Y k m s,
  match m s with
  | Some (x, s') => k x s'
  | None => None
  end.

Section RankSort.
Context {A : Type} `{!Atom A}.

Definition log (a : access) (s : store A) : store A :=
  Store (s_list s) (s_rank s) (s_response s) (s_trace s ++ [a]).

(** [list[i]]: defined only inside the caller's storage. *)
Definition get_list (i : nat) : M A A :=
  λ s, match s_list s !! i with
       | Some x => Some (x, log (RdList i) s)
       | None => None
       end.

(** [rank[i]] *)
Definition get_rank (i : nat) : M A nat :=
  λ s, match s_rank s !! i with
       | Some r => Some (r, log (RdRank i) s)
       | None => None
       end.

(** [response[i] = x] *)
Definition put_response (i : nat) (x : A) : M A unit :=
  λ s, if decide (i < length (s_response s))
       then Some (tt, Store (s_list s) (s_rank s) (<[i:=x]> (s_response s))
                            (s_trace s ++ [WrResponse i]))
       else None.

(** [size_t rank[] = { ... }] *)
Definition set_rank (rs : list nat) : M A unit :=
  λ s, Some (tt, Store (s_list s) rs (s_response s) (s_trace s)).

(** [array<Atom<T>, N> response = {}] *)
Definition new_response (N : nat) : M A unit :=
  λ s, Some (tt, Store (s_list s) (s_rank s) (replicate N atom0) (s_trace s)).

(** [return response] *)
Definition get_response : M A (list A) :=
  λ s, Some (s_response s, s).

(** ** The routine *)

(** [make_index_sequence<n>] *)
Definition make_index_sequence (n : nat) : list nat := seq 0 n.

(** [((list[I] >= list[J]) + ... + 0)] *)
Fixpoint sort_rank_l (i : nat) (jseq : list nat) : M A nat :=
  match jseq with
  | [] => mret 0
  | j :: jseq' =>
      x ← get_list i;
      y ← get_list j;
      r ← sort_rank_l i jseq';
      mret (Nat.b2n (geb x y) + r)
  end.

(** [((list[I] > list[1+I+J]) + ... + 0)] *)
Fixpoint sort_rank_u (i : nat) (jseq : list nat) : M A nat :=
  match jseq with
  | [] => mret 0
  | j :: jseq' =>
      x ← get_list i;
      y ← get_list (1 + i + j);
      r ← sort_rank_u i jseq';
      mret (Nat.b2n (gtb x y) + r)
  end.

(** The initialiser list of [rank]: one entry per [I], left to right. *)
Fixpoint rank_init (N : nat) (iseq : list nat) : M A (list nat) :=
  match iseq with
  | [] => mret []
  | i :: iseq' =>
      lo ← sort_rank_l i (make_index_sequence i);
      up ← sort_rank_u i (make_index_sequence (N - i - 1));
      rs ← rank_init N iseq';
      mret ((lo + up) :: rs)
  end.

(** [((response[rank[I]] = list[I]), ...)] *)
Fixpoint scatter (iseq : list nat) : M A unit :=
  match iseq with
  | [] => mret tt
  | i :: iseq' =>
      x ← get_list i;
      r ← get_rank i;
      put_response r x;;
      scatter iseq'
  end.

Definition sort_impl (N : nat) (iseq : list nat) : M A (list A) :=
  rs ← rank_init N iseq;
  set_rank rs;;
  new_response N;;
  scatter iseq;;
  get_response.

Definition sort (N : nat) : M A (list A) :=
  sort_impl N (make_index_sequence N).

(** A call from a caller whose storage holds [l]. *)
Definition call_store (l : list A) : store A := Store l [] [] [].

Definition run_sort (N : nat) (l : list A) : option (list A * store A) :=
  sort N (call_store l).

(** ** What a run computes

    Closed forms of the values and of the access trace of each part of the
    routine, read off the definitions above; the lemmas [*_run] below tie
    them to the monadic code. *)

Definition logs (tr : list access) (s : store A) : store A :=
  Store (s_list s) (s_rank s) (s_response s) (s_trace s ++ tr).

Definition elem (l : list A) (i : nat) : A := nth i l atom0.

Fixpoint lower_val (l : list A) (i : nat) (jseq : list nat) : nat :=
  match jseq with
  | [] => 0
  | j :: jseq' => Nat.b2n (geb (elem l i) (elem l j)) + lower_val l i jseq'
  end.

Fixpoint upper_val (l : list A) (i : nat) (jseq : list nat) : nat :=
  match jseq with
  | [] => 0
  | j :: jseq' =>
      Nat.b2n (gtb (elem l i) (elem l (1 + i + j))) + upper_val l i jseq'
  end.

Definition rank_val (N : nat) (l : list A) (i : nat) : nat :=
  lower_val l i (make_index_sequence i)
  + upper_val l i (make_index_sequence (N - i - 1)).

Fixpoint scatter_val (l : list A) (rk : list nat) (iseq : list nat)
    (resp : list A) : list A :=
  match iseq with
  | [] => resp
  | i :: iseq' => scatter_val l rk iseq' (<[nth i rk 0 := elem l i]> resp)
  end.

Definition ranks_val (N : nat) (l : list A) : list nat :=
  rank_val N l <$> make_index_sequence N.

Definition sort_val (N : nat) (l : list A) : list A :=
  scatter_val l (ranks_val N l) (make_index_sequence N) (replicate N atom0).

Definition lower_trace (i : nat) (jseq : list nat) : list access :=
  flat_map (λ j, [RdList i; RdList j]) jseq.

Definition upper_trace (i : nat) (jseq : list nat) : list access :=
  flat_map (λ j, [RdList i; RdList (1 + i + j)]) jseq.

Definition rank_trace (N : nat) (iseq : list nat) : list access :=
  flat_map (λ i, lower_trace i (make_index_sequence i)
                 ++ upper_trace i (make_index_sequence (N - i - 1))) iseq.

Definition scatter_trace (rk : list nat) (iseq : list nat) : list access :=
  flat_map (λ i, [RdList i; RdRank i; WrResponse (nth i rk 0)]) iseq.

Definition sort_trace (N : nat) (l : list A) : list access :=
  rank_trace N (make_index_sequence N)
  ++ scatter_trace (ranks_val N l) (make_index_sequence N).

(** ** Notions the statements are phrased with *)

(** The rank of index [i] in the words of the specification: the number of
    earlier indices [j] in [0..i-1] with [element[i] >= element[j]], plus
    the number of later indices [k] in [i+1..N-1] with
    [element[i] > element[k]]. *)
Definition rank_spec (N : nat) (l : list A) (i : nat) : nat :=
  length (List.filter (λ j, geb (elem l i) (elem l j)) (seq 0 i))
  + length (List.filter (λ k, gtb (elem l i) (elem l k))
                        (seq (i + 1) (N - 1 - i))).

(** [placed_before l j i]: the comparison of the pair [{i, j}] that the
    passes make counts towards the rank of [i]. *)
Definition placed_before (l : list A) (j i : nat) : bool :=
  if decide (j < i) then geb (elem l i) (elem l j)
  else if decide (i < j) then gtb (elem l i) (elem l j)
  else false.

(** The first [N] elements are in non-decreasing order, position by
    position: [xs[p] <= xs[p+1]], read as [xs[p+1] >= xs[p]]. *)
Definition nondecreasing (N : nat) (xs : list A) : Prop :=
  ∀ p x y, p + 1 < N → xs !! p = Some x → xs !! (p + 1) = Some y →
           geb y x = true.

(** Two inputs with the same elements at the indices [0..N-1]. *)
Definition agree (N : nat) (l1 l2 : list A) : Prop :=
  ∀ i, i < N → l1 !! i = l2 !! i.

(** Every recorded access stays below [N]. *)
Definition in_bounds (N : nat) (tr : list access) : Prop :=
  Forall (λ a, access_index a < N) tr.

End RankSort.

(** The element type of the usage example: [int], compared as integers. *)
Global Instance Z_atom : Atom Z := {| geb := Z.geb; gtb := Z.gtb; atom0 := 0%Z |}.

(** [constexpr int known[] = { 5, 7, 3, 1, -5, 9 }] *)
Definition known : list Z := [5; 7; 3; 1; -5; 9]%Z.

(** A comparison under which some elements are unordered: [None] compares
    false against everything, itself included. *)
Definition unordered_atom : Atom (option Z) := {|
  geb := λ x y, match x, y with Some a, Some b => Z.geb a b | _, _ => false end;
  gtb := λ x y, match x, y with Some a, Some b => Z.gtb a b | _, _ => false end;
  atom0 := Some 0%Z
|}.

(** The accesses that read, and the [response] slots written, in the order
    of the accesses. *)
Definition is_read (a : access) : bool :=
  match a with
  | WrResponse _ => false
  | _ => true
  end.

Definition written (tr : list access) : list nat :=
  flat_map (λ a, match a with WrResponse r => [r] | _ => [] end) tr.

(** [x <= y] for elements, read as [y >= x]. *)
Definition atom_le {A : Type} `{!Atom A} (x y : A) : Prop := geb y x = true.


Example sort_known :
  fst <$> run_sort 6 known = Some [-5; 1; 3; 5; 7; 9]%Z.
Proof. reflexivity. Qed.

Example sort_repeated :
  run_sort 3 [2; 2; 1]%Z
  = Some ([1; 2; 2]%Z,
          Store [2; 2; 1]%Z [1; 2; 0] [1; 2; 2]%Z (sort_trace 3 [2; 2; 1]%Z)).
Proof. reflexivity. Qed.

Example sort_all_equal :
  (λ r, (r.1, s_rank r.2)) <$> run_sort 3 [3; 3; 3]%Z
  = Some ([3; 3; 3]%Z, [0; 1; 2]).
Proof. reflexivity. Qed.

Example sort_single : fst <$> run_sort 1 [1]%Z = Some [1]%Z.
Proof. reflexivity. Qed.

Example sort_empty : fst <$> run_sort 0 known = Some [].
Proof. reflexivity. Qed.

(** Asking for more elements than the caller's storage holds reads out of
    bounds: the run has no result. *)
Example sort_short :
  run_sort 7 known = None.
Proof. reflexivity. Qed.

Section RankSortFacts.
Context {A : Type} `{!Atom A}.
Implicit Types (s : store A) (l : list A) (N i j k p : nat).

(** *** Stepping through the monad *)

Lemma bind_run {X Y} (m : M A X) (k : X → M A Y) s x s' :
  m s = Some (x, s') → (m ≫= k) s = k x s'.
Proof. intros H. unfold mbind, M_bind. by rewrite H. Qed.

Ltac step H := rewrite (bind_run _ _ _ _ _ H); cbv beta.

Lemma logs_nil s : logs [] s = s.
Proof. destruct s. unfold logs. simpl. by rewrite app_nil_r. Qed.

Lemma logs_logs tr1 tr2 s : logs tr2 (logs tr1 s) = logs (tr1 ++ tr2) s.
Proof. unfold logs. simpl. by rewrite app_assoc. Qed.

Lemma get_list_run i s :
  i < length (s_list s) →
  get_list i s = Some (elem (s_list s) i, logs [RdList i] s).
Proof.
  intros Hi. unfold get_list, elem.
  destruct (lookup_lt_is_Some_2 _ _ Hi) as [x Hx].
  rewrite Hx. by rewrite (nth_lookup_Some _ _ atom0 _ Hx).
Qed.

Lemma get_rank_run i s :
  i < length (s_rank s) →
  get_rank i s = Some (nth i (s_rank s) 0, logs [RdRank i] s).
Proof.
  intros Hi. unfold get_rank.
  destruct (lookup_lt_is_Some_2 _ _ Hi) as [x Hx].
  rewrite Hx. by rewrite (nth_lookup_Some _ _ 0 _ Hx).
Qed.

Lemma sort_rank_l_run i jseq s :
  i < length (s_list s) →
  Forall (λ j, j < length (s_list s)) jseq →
  sort_rank_l i jseq s
  = Some (lower_val (s_list s) i jseq, logs (lower_trace i jseq) s).
Proof.
  intros Hi Hj. revert s Hi Hj.
  induction jseq as [|j jseq IH]; intros s Hi Hj; simpl.
  - by rewrite logs_nil.
  - apply Forall_cons in Hj as [Hj Hjs].
    step (get_list_run i s Hi).
    step (get_list_run j (logs [RdList i] s) Hj).
    step (IH (logs [RdList j] (logs [RdList i] s)) Hi Hjs).
    by rewrite !logs_logs.
Qed.

Lemma sort_rank_u_run i jseq s :
  i < length (s_list s) →
  Forall (λ j, 1 + i + j < length (s_list s)) jseq →
  sort_rank_u i jseq s
  = Some (upper_val (s_list s) i jseq, logs (upper_trace i jseq) s).
Proof.
  intros Hi Hj. revert s Hi Hj.
  induction jseq as [|j jseq IH]; intros s Hi Hj; simpl.
  - by rewrite logs_nil.
  - apply Forall_cons in Hj as [Hj Hjs].
    step (get_list_run i s Hi).
    step (get_list_run (1 + i + j) (logs [RdList i] s) Hj).
    step (IH (logs [RdList (1 + i + j)] (logs [RdList i] s)) Hi Hjs).
    by rewrite !logs_logs.
Qed.

Lemma index_sequence_lt N : Forall (λ i, i < N) (make_index_sequence N).
Proof.
  apply Forall_forall. intros i Hi. apply elem_of_seq in Hi. lia.
Qed.

Lemma lower_index_ok i n :
  i < n → Forall (λ j, j < n) (make_index_sequence i).
Proof.
  intros Hi. apply Forall_forall. intros j Hj.
  apply elem_of_seq in Hj. lia.
Qed.

Lemma upper_index_ok N i n :
  i < N → N ≤ n →
  Forall (λ j, 1 + i + j < n) (make_index_sequence (N - i - 1)).
Proof.
  intros Hi HN. apply Forall_forall. intros j Hj.
  apply elem_of_seq in Hj. lia.
Qed.

Lemma rank_init_run N iseq s :
  N ≤ length (s_list s) →
  Forall (λ i, i < N) iseq →
  rank_init N iseq s
  = Some (rank_val N (s_list s) <$> iseq, logs (rank_trace N iseq) s).
Proof.
  intros HN Hseq. revert s HN.
  induction Hseq as [|i iseq Hi Hseq IH]; intros s HN; simpl.
  - by rewrite logs_nil.
  - assert (Hil : i < length (s_list s)) by lia.
    step (sort_rank_l_run i _ s Hil (lower_index_ok _ _ Hil)).
    step (sort_rank_u_run i _ (logs (lower_trace i (make_index_sequence i)) s)
            Hil (upper_index_ok N i _ Hi HN)).
    step (IH (logs (upper_trace i (make_index_sequence (N - i - 1)))
                (logs (lower_trace i (make_index_sequence i)) s)) HN).
    rewrite !logs_logs. unfold rank_trace. simpl.
    by rewrite <- !app_assoc.
Qed.

Lemma put_response_run r x s :
  r < length (s_response s) →
  put_response r x s
  = Some (tt, Store (s_list s) (s_rank s) (<[r:=x]> (s_response s))
                    (s_trace s ++ [WrResponse r])).
Proof. intros Hr. unfold put_response. by rewrite decide_True. Qed.

Lemma scatter_run iseq s :
  Forall (λ i, i < length (s_list s) ∧ i < length (s_rank s)
               ∧ nth i (s_rank s) 0 < length (s_response s)) iseq →
  scatter iseq s
  = Some (tt, Store (s_list s) (s_rank s)
                (scatter_val (s_list s) (s_rank s) iseq (s_response s))
                (s_trace s ++ scatter_trace (s_rank s) iseq)).
Proof.
  intros Hseq. revert s Hseq.
  induction iseq as [|i iseq IH]; intros s Hseq; simpl.
  - rewrite app_nil_r. by destruct s.
  - apply Forall_cons in Hseq as [(Hl & Hr & Hp) Hseq].
    step (get_list_run i s Hl).
    step (get_rank_run i (logs [RdList i] s) Hr).
    step (put_response_run (nth i (s_rank s) 0) (elem (s_list s) i)
            (logs [RdRank i] (logs [RdList i] s)) Hp).
    rewrite IH; simpl.
    + by rewrite <- !app_assoc.
    + rewrite length_insert. exact Hseq.
Qed.

Lemma lower_val_le l i jseq : lower_val l i jseq ≤ length jseq.
Proof.
  induction jseq as [|j jseq IH]; simpl; [lia|].
  destruct (geb _ _); simpl; lia.
Qed.

Lemma upper_val_le l i jseq : upper_val l i jseq ≤ length jseq.
Proof.
  induction jseq as [|j jseq IH]; simpl; [lia|].
  destruct (gtb _ _); simpl; lia.
Qed.

(** No rank reaches [N]: the two passes make [N - 1] comparisons. *)
Lemma rank_val_lt N l i : i < N → rank_val N l i < N.
Proof.
  intros Hi. unfold rank_val, make_index_sequence.
  pose proof (lower_val_le l i (seq 0 i)) as H1.
  pose proof (upper_val_le l i (seq 0 (N - i - 1))) as H2.
  rewrite length_seq in H1, H2. lia.
Qed.

Lemma nth_ranks_val N l i : i < N → nth i (ranks_val N l) 0 = rank_val N l i.
Proof.
  intros Hi. unfold ranks_val, make_index_sequence.
  apply nth_lookup_Some.
  by rewrite list_lookup_fmap, lookup_seq_lt.
Qed.

Lemma length_ranks_val N l : length (ranks_val N l) = N.
Proof. unfold ranks_val, make_index_sequence. by rewrite length_fmap, length_seq. Qed.

(** The whole routine, from any store whose [list] holds [N] elements. *)
Lemma sort_run N s :
  N ≤ length (s_list s) →
  sort N s
  = Some (sort_val N (s_list s),
          Store (s_list s) (ranks_val N (s_list s)) (sort_val N (s_list s))
                (s_trace s ++ sort_trace N (s_list s))).
Proof.
  intros HN. unfold sort, sort_impl.
  pose proof (index_sequence_lt N) as Hseq.
  step (rank_init_run N _ s HN Hseq).
  fold (ranks_val N (s_list s)).
  set (s2 := Store (s_list s) (ranks_val N (s_list s)) (replicate N atom0)
                   (s_trace s ++ rank_trace N (make_index_sequence N))).
  assert (Hsc : Forall (λ i, i < length (s_list s2) ∧ i < length (s_rank s2)
                   ∧ nth i (s_rank s2) 0 < length (s_response s2))
                  (make_index_sequence N)).
  { eapply Forall_impl; [exact Hseq|]. intros i Hi. simpl in *.
    rewrite length_ranks_val, length_replicate, nth_ranks_val by done.
    split_and!; [lia|done|by apply rank_val_lt]. }
  apply scatter_run in Hsc.
  unfold mbind at 1, M_bind, set_rank. cbv beta iota.
  unfold mbind at 1, M_bind, new_response. cbv beta iota.
  change (Store _ _ (replicate N atom0) _) with s2.
  step Hsc. unfold get_response, sort_val, sort_trace, s2. simpl.
  by rewrite app_assoc.
Qed.

(** *** The ranks as counts *)

Lemma lower_val_filter l i jseq :
  lower_val l i jseq
  = length (List.filter (λ j, geb (elem l i) (elem l j)) jseq).
Proof.
  induction jseq as [|j jseq IH]; simpl; [done|].
  rewrite IH. by destruct (geb _ _).
Qed.

Lemma upper_val_filter l i jseq :
  upper_val l i jseq
  = length (List.filter (λ k, gtb (elem l i) (elem l k))
                        (map (Nat.add (1 + i)) jseq)).
Proof.
  induction jseq as [|j jseq IH]; simpl; [done|].
  rewrite IH. by destruct (gtb _ _).
Qed.

Lemma rank_val_spec N l i : rank_val N l i = rank_spec N l i.
Proof.
  unfold rank_val, rank_spec, make_index_sequence.
  rewrite lower_val_filter, upper_val_filter.
  change (map (Nat.add (1 + i))) with (fmap (M:=list) (Nat.add (1 + i))).
  rewrite fmap_add_seq.
  by replace (1 + i + 0) with (i + 1) by lia;
     replace (N - i - 1) with (N - 1 - i) by lia.
Qed.

Lemma lookup_ranks_val N l i :
  i < N → ranks_val N l !! i = Some (rank_val N l i).
Proof.
  intros Hi. unfold ranks_val, make_index_sequence.
  by rewrite list_lookup_fmap, lookup_seq_lt.
Qed.

(** *** Shape of the output *)

Lemma length_scatter_val l rk iseq resp :
  length (scatter_val l rk iseq resp) = length resp.
Proof.
  revert resp. induction iseq as [|i iseq IH]; intros resp; simpl; [done|].
  by rewrite IH, length_insert.
Qed.

Lemma length_sort_val N l : length (sort_val N l) = N.
Proof. unfold sort_val. by rewrite length_scatter_val, length_replicate. Qed.

(** *** The accesses *)

Lemma lower_trace_in_bounds N i :
  i < N → in_bounds N (lower_trace i (make_index_sequence i)).
Proof.
  intros Hi. unfold in_bounds, lower_trace, make_index_sequence.
  apply Forall_flat_map, Forall_forall. intros j Hj.
  apply elem_of_seq in Hj. repeat constructor; simpl; lia.
Qed.

Lemma upper_trace_in_bounds N i :
  i < N → in_bounds N (upper_trace i (make_index_sequence (N - i - 1))).
Proof.
  intros Hi. unfold in_bounds, upper_trace, make_index_sequence.
  apply Forall_flat_map, Forall_forall. intros j Hj.
  apply elem_of_seq in Hj. repeat constructor; simpl; lia.
Qed.

Lemma sort_trace_in_bounds N l : in_bounds N (sort_trace N l).
Proof.
  unfold in_bounds, sort_trace, rank_trace, scatter_trace.
  apply Forall_app; split; apply Forall_flat_map, Forall_forall;
    intros i Hi; apply elem_of_seq in Hi.
  - apply Forall_app; split;
      [apply lower_trace_in_bounds | apply upper_trace_in_bounds]; lia.
  - rewrite nth_ranks_val by lia.
    repeat constructor; simpl; try lia. apply rank_val_lt. lia.
Qed.

(** *** Only the first [N] elements matter *)

Lemma agree_elem N l1 l2 i : agree N l1 l2 → i < N → elem l1 i = elem l2 i.
Proof. intros Hag Hi. unfold elem. by rewrite !nth_lookup, (Hag i Hi). Qed.

Lemma lower_val_agree N l1 l2 i jseq :
  agree N l1 l2 → i < N → Forall (λ j, j < N) jseq →
  lower_val l1 i jseq = lower_val l2 i jseq.
Proof.
  intros Hag Hi Hj. induction Hj as [|j jseq Hj _ IH]; simpl; [done|].
  by rewrite IH, (agree_elem N l1 l2 i), (agree_elem N l1 l2 j).
Qed.

Lemma upper_val_agree N l1 l2 i jseq :
  agree N l1 l2 → i < N → Forall (λ j, 1 + i + j < N) jseq →
  upper_val l1 i jseq = upper_val l2 i jseq.
Proof.
  intros Hag Hi Hj. induction Hj as [|j jseq Hj _ IH]; simpl; [done|].
  by rewrite IH, (agree_elem N l1 l2 i), (agree_elem N l1 l2 (S (i + j))).
Qed.

Lemma rank_val_agree N l1 l2 i :
  agree N l1 l2 → i < N → rank_val N l1 i = rank_val N l2 i.
Proof.
  intros Hag Hi. unfold rank_val.
  rewrite (lower_val_agree N l1 l2), (upper_val_agree N l1 l2);
    auto using lower_index_ok, upper_index_ok.
Qed.

Lemma ranks_val_agree N l1 l2 :
  agree N l1 l2 → ranks_val N l1 = ranks_val N l2.
Proof.
  intros Hag. apply list_eq. intros i.
  destruct (decide (i < N)) as [Hi|Hi].
  - by rewrite !lookup_ranks_val, (rank_val_agree N l1 l2).
  - rewrite !lookup_ge_None_2; [done| |]; rewrite length_ranks_val; lia.
Qed.

Lemma scatter_val_agree N l1 l2 rk iseq resp :
  agree N l1 l2 → Forall (λ i, i < N) iseq →
  scatter_val l1 rk iseq resp = scatter_val l2 rk iseq resp.
Proof.
  intros Hag Hseq. revert resp.
  induction Hseq as [|i iseq Hi _ IH]; intros resp; simpl; [done|].
  by rewrite IH, (agree_elem N l1 l2 i).
Qed.

Lemma sort_val_agree N l1 l2 :
  agree N l1 l2 → sort_val N l1 = sort_val N l2.
Proof.
  intros Hag. unfold sort_val.
  rewrite (ranks_val_agree N l1 l2 Hag).
  apply (scatter_val_agree N); [done|]. apply index_sequence_lt.
Qed.

(** *** Where the scatter step puts each element *)

Lemma lookup_elem l i : i < length l → l !! i = Some (elem l i).
Proof.
  intros Hi. destruct (lookup_lt_is_Some_2 _ _ Hi) as [x Hx].
  unfold elem. by rewrite (nth_lookup_Some _ _ atom0 _ Hx).
Qed.

Lemma scatter_val_other l rk iseq resp p :
  Forall (λ i, nth i rk 0 ≠ p) iseq →
  scatter_val l rk iseq resp !! p = resp !! p.
Proof.
  intros Hne. revert resp.
  induction Hne as [|i iseq Hi _ IH]; intros resp; simpl; [done|].
  by rewrite IH, list_lookup_insert_ne.
Qed.

Lemma scatter_val_at l rk iseq resp i :
  i ∈ iseq →
  Forall (λ k, nth k rk 0 = nth i rk 0 → k = i) iseq →
  nth i rk 0 < length resp →
  scatter_val l rk iseq resp !! nth i rk 0 = Some (elem l i).
Proof.
  intros Hin Hinj. revert resp Hin.
  induction Hinj as [|k iseq Hk Hinj IH]; intros resp Hin Hlt; simpl.
  - by apply elem_of_nil in Hin.
  - destruct (decide (i ∈ iseq)) as [Hi|Hi].
    + apply IH; [done|]. by rewrite length_insert.
    + apply elem_of_cons in Hin as [->|Hin]; [|done].
      rewrite scatter_val_other.
      * by apply list_lookup_insert_eq.
      * clear IH. induction Hinj as [|k' iseq Hk' Hinj IH]; constructor.
        -- intros Heq. apply Hi. rewrite (Hk' Heq). by left.
        -- apply IH. intros Hin. apply Hi. by right.
Qed.

(** When no two source indices share a rank, the ranks fill [0..N-1] and
    the output is a rearrangement of the first [N] elements. *)
Section Injective.
Variables (N : nat) (l : list A).
Hypothesis rank_inj :
  ∀ i k, i < N → k < N → rank_val N l i = rank_val N l k → i = k.

Lemma sort_val_at i :
  i < N → sort_val N l !! rank_val N l i = Some (elem l i).
Proof using rank_inj.
  intros Hi. unfold sort_val.
  rewrite <- (nth_ranks_val N l i Hi).
  apply scatter_val_at.
  - apply elem_of_seq. lia.
  - apply Forall_forall. intros k Hk. apply elem_of_seq in Hk.
    rewrite !nth_ranks_val by lia. intros Heq. apply rank_inj; [lia..|done].
  - rewrite length_replicate, nth_ranks_val by done. by apply rank_val_lt.
Qed.

Lemma ranks_val_NoDup : NoDup (ranks_val N l).
Proof using rank_inj.
  unfold ranks_val, make_index_sequence.
  apply NoDup_fmap_2_strong; [|apply NoDup_seq].
  intros i k Hi Hk. apply elem_of_seq in Hi, Hk. apply rank_inj; lia.
Qed.

Lemma ranks_val_Permutation : ranks_val N l ≡ₚ seq 0 N.
Proof using rank_inj.
  apply submseteq_length_Permutation.
  - apply NoDup_submseteq; [apply ranks_val_NoDup|].
    intros r Hr. apply list_elem_of_lookup in Hr as [i Hr].
    assert (Hi : i < N).
    { apply lookup_lt_Some in Hr. by rewrite length_ranks_val in Hr. }
    rewrite lookup_ranks_val in Hr by done. injection Hr as <-.
    apply elem_of_seq. pose proof (rank_val_lt N l i Hi). lia.
  - by rewrite length_ranks_val, length_seq.
Qed.

(** Every output position is the rank of some source index. *)
Lemma rank_val_surj p : p < N → ∃ i, i < N ∧ rank_val N l i = p.
Proof using rank_inj.
  intros Hp.
  assert (Hin : p ∈ ranks_val N l).
  { rewrite ranks_val_Permutation. apply elem_of_seq. lia. }
  apply list_elem_of_lookup in Hin as [i Hr]. exists i.
  assert (Hi : i < N).
  { apply lookup_lt_Some in Hr. by rewrite length_ranks_val in Hr. }
  rewrite lookup_ranks_val in Hr by done. by injection Hr as <-.
Qed.

Lemma sort_val_Permutation : N ≤ length l → sort_val N l ≡ₚ take N l.
Proof using rank_inj.
  intros HN.
  assert (Hout : (λ r, elem (sort_val N l) r) <$> seq 0 N = sort_val N l).
  { apply list_eq. intros p. rewrite list_lookup_fmap.
    destruct (decide (p < N)) as [Hp|Hp].
    - rewrite lookup_seq_lt by done. simpl.
      by rewrite lookup_elem by (rewrite length_sort_val; lia).
    - rewrite !lookup_ge_None_2; [done|rewrite length_sort_val; lia|].
      rewrite length_seq. lia. }
  assert (Hin : (λ r, elem (sort_val N l) r) <$> ranks_val N l = take N l).
  { apply list_eq. intros i. rewrite list_lookup_fmap.
    destruct (decide (i < N)) as [Hi|Hi].
    - rewrite lookup_ranks_val, lookup_take_lt by done. simpl.
      rewrite lookup_elem by lia. f_equal.
      unfold elem at 1. by rewrite (nth_lookup_Some _ _ _ _ (sort_val_at i Hi)).
    - rewrite lookup_take_ge by lia.
      rewrite lookup_ge_None_2; [done|]. rewrite length_ranks_val. lia. }
  rewrite <- Hout, <- Hin. by rewrite ranks_val_Permutation.
Qed.
End Injective.

(** *** Counting *)

Lemma filter_length_le (f g : nat → bool) (js : list nat) :
  (∀ x, f x = true → g x = true) →
  length (List.filter f js) ≤ length (List.filter g js).
Proof.
  intros Hfg. induction js as [|j js IH]; simpl; [done|].
  destruct (f j) eqn:Hf.
  - rewrite (Hfg j Hf). simpl. lia.
  - destruct (g j); simpl; lia.
Qed.

Lemma filter_length_lt (f g : nat → bool) (js : list nat) y :
  (∀ x, f x = true → g x = true) →
  y ∈ js → f y = false → g y = true →
  length (List.filter f js) < length (List.filter g js).
Proof.
  intros Hfg Hin Hf Hg. induction js as [|j js IH]; simpl.
  - by apply elem_of_nil in Hin.
  - apply elem_of_cons in Hin as [<-|Hin].
    + rewrite Hf, Hg. simpl.
      pose proof (filter_length_le f g js Hfg). lia.
    + specialize (IH Hin). destruct (f j) eqn:Hfj.
      * rewrite (Hfg j Hfj). simpl. lia.
      * destruct (g j); simpl; lia.
Qed.

Lemma filter_length_ext (f g : nat → bool) (js : list nat) :
  Forall (λ x, f x = g x) js →
  length (List.filter f js) = length (List.filter g js).
Proof.
  induction 1 as [|j js Hj _ IH]; simpl; [done|].
  rewrite Hj. destruct (g j); simpl; lia.
Qed.

(** The rank of [i] counts the indices placed before it. *)
Lemma rank_val_count N l i :
  i < N →
  rank_val N l i
  = length (List.filter (λ j, placed_before l j i) (seq 0 N)).
Proof.
  intros Hi. rewrite rank_val_spec. unfold rank_spec.
  replace N with (i + (1 + (N - 1 - i))) at 2 by lia.
  rewrite !seq_app, !List.filter_app, !length_app. simpl.
  assert (Hself : placed_before l i i = false).
  { unfold placed_before. by rewrite !decide_False by lia. }
  rewrite Hself. simpl. f_equal; apply filter_length_ext, Forall_forall;
    intros j Hj; apply elem_of_seq in Hj; unfold placed_before.
  - by rewrite decide_True by lia.
  - by rewrite decide_False, decide_True by lia.
Qed.

(** *** Under a total preorder the ranks order the indices *)

Section Order.
Context `{!AtomOrder A}.

Lemma geb_refl (x : A) : geb x x = true.
Proof. by destruct (geb_total x x). Qed.

Lemma geb_false_flip (x y : A) : geb x y = false → geb y x = true.
Proof. intros Hxy. destruct (geb_total x y); congruence. Qed.

Lemma placed_before_iff l j i :
  placed_before l j i = true
  ↔ geb (elem l j) (elem l i) = false
    ∨ (geb (elem l i) (elem l j) = true ∧ j < i).
Proof.
  unfold placed_before.
  destruct (decide (j < i)) as [Hji|Hji]; [|destruct (decide (i < j)) as [Hij|Hij]].
  - split; [auto|]. intros [Hf|[Ht _]]; [by apply geb_false_flip|done].
  - rewrite gtb_geb, negb_true_iff. split; [auto|]. intros [Hf|[_ ?]]; [done|lia].
  - assert (j = i) as -> by lia. rewrite geb_refl.
    split; [done|]. intros [?|[_ ?]]; [done|lia].
Qed.

Lemma placed_before_irrefl l i : placed_before l i i = false.
Proof. unfold placed_before. by rewrite !decide_False by lia. Qed.

Lemma placed_before_trans l j i k :
  placed_before l j i = true → placed_before l i k = true →
  placed_before l j k = true.
Proof.
  rewrite !placed_before_iff.
  intros [Hji|[Hij Hlt1]] [Hik|[Hki Hlt2]].
  - left. destruct (geb (elem l j) (elem l k)) eqn:Hjk; [|done].
    rewrite (geb_trans _ _ _ Hjk (geb_false_flip _ _ Hik)) in Hji. done.
  - left. destruct (geb (elem l j) (elem l k)) eqn:Hjk; [|done].
    rewrite (geb_trans _ _ _ Hjk Hki) in Hji. done.
  - left. destruct (geb (elem l j) (elem l k)) eqn:Hjk; [|done].
    rewrite (geb_trans _ _ _ Hij Hjk) in Hik. done.
  - right. split; [by eapply geb_trans|lia].
Qed.

Lemma placed_before_total l i k :
  i ≠ k → placed_before l i k = true ∨ placed_before l k i = true.
Proof.
  intros Hne. rewrite !placed_before_iff.
  destruct (geb (elem l i) (elem l k)) eqn:Hik; [|by left; left].
  destruct (geb (elem l k) (elem l i)) eqn:Hki; [|by right; left].
  destruct (decide (i < k)); [left|right]; right; split; [done|lia|done|lia].
Qed.

Lemma placed_before_geb l i k :
  placed_before l i k = true → geb (elem l k) (elem l i) = true.
Proof.
  rewrite placed_before_iff. intros [Hf|[Ht _]]; [by apply geb_false_flip|done].
Qed.

Lemma rank_val_mono N l i k :
  i < N → k < N → placed_before l i k = true →
  rank_val N l i < rank_val N l k.
Proof.
  intros Hi Hk Hik. rewrite !rank_val_count by done.
  apply filter_length_lt with (y := i).
  - intros j Hj. by apply placed_before_trans with i.
  - apply elem_of_seq. lia.
  - apply placed_before_irrefl.
  - done.
Qed.

Lemma rank_val_inj N l i k :
  i < N → k < N → rank_val N l i = rank_val N l k → i = k.
Proof.
  intros Hi Hk Heq. destruct (decide (i = k)) as [|Hne]; [done|].
  destruct (placed_before_total l i k Hne) as [Hb|Hb];
    apply (rank_val_mono N) in Hb; lia.
Qed.

Lemma rank_val_lt_before N l i k :
  i < N → k < N → rank_val N l i < rank_val N l k →
  placed_before l i k = true.
Proof.
  intros Hi Hk Hlt. destruct (decide (i = k)) as [->|Hne]; [lia|].
  destruct (placed_before_total l i k Hne) as [Hb|Hb]; [done|].
  apply (rank_val_mono N) in Hb; lia.
Qed.

(** Adjacent output positions are in order. *)
Lemma sort_val_adjacent N l p :
  p + 1 < N →
  ∃ x y, sort_val N l !! p = Some x ∧ sort_val N l !! (p + 1) = Some y
         ∧ geb y x = true.
Proof.
  intros Hp.
  destruct (rank_val_surj N l (rank_val_inj N l) p) as (i & Hi & Hri); [lia|].
  destruct (rank_val_surj N l (rank_val_inj N l) (p + 1)) as (k & Hk & Hrk);
    [lia|].
  exists (elem l i), (elem l k). subst p. rewrite <- Hrk.
  rewrite (sort_val_at N l (rank_val_inj N l) i Hi).
  rewrite (sort_val_at N l (rank_val_inj N l) k Hk).
  split_and!; [done..|].
  apply placed_before_geb, (rank_val_lt_before N); [done..|lia].
Qed.

Lemma sort_val_nondecreasing N l : nondecreasing N (sort_val N l).
Proof.
  intros p x y Hp Hx Hy.
  destruct (sort_val_adjacent N l p Hp) as (x' & y' & Hx' & Hy' & Hge).
  congruence.
Qed.

(** Equal elements are ranked in the order of their indices. *)
Lemma rank_val_stable N l i k :
  i < k → k < N →
  geb (elem l i) (elem l k) = true → geb (elem l k) (elem l i) = true →
  rank_val N l i < rank_val N l k.
Proof.
  intros Hik Hk _ Hki. apply rank_val_mono; [lia|done|].
  apply placed_before_iff. by right.
Qed.

(** On an input that is already in order every index is its own rank. *)
Lemma nondecreasing_pairwise N l j d :
  N ≤ length l → nondecreasing N l → j + 1 + d < N →
  geb (elem l (j + 1 + d)) (elem l j) = true.
Proof.
  intros HN Hnd. induction d as [|d IH]; intros Hlt.
  - replace (j + 1 + 0) with (j + 1) by lia.
    apply (Hnd j); [lia|apply lookup_elem; lia..].
  - apply geb_trans with (elem l (j + 1 + d)); [|apply IH; lia].
    replace (j + 1 + S d) with (j + 1 + d + 1) by lia.
    apply (Hnd (j + 1 + d)); [lia|apply lookup_elem; lia..].
Qed.

Lemma nondecreasing_geb N l j i :
  N ≤ length l → nondecreasing N l → j < i → i < N →
  geb (elem l i) (elem l j) = true.
Proof.
  intros HN Hnd Hji Hi. replace i with (j + 1 + (i - j - 1)) by lia.
  apply (nondecreasing_pairwise N); [done..|lia].
Qed.

Lemma lower_val_all l i jseq :
  Forall (λ j, geb (elem l i) (elem l j) = true) jseq →
  lower_val l i jseq = length jseq.
Proof.
  induction 1 as [|j jseq Hj _ IH]; simpl; [done|]. by rewrite Hj, IH.
Qed.

Lemma upper_val_none l i jseq :
  Forall (λ j, gtb (elem l i) (elem l (1 + i + j)) = false) jseq →
  upper_val l i jseq = 0.
Proof.
  induction 1 as [|j jseq Hj _ IH]; simpl; [done|].
  simpl in Hj. by rewrite Hj, IH.
Qed.

Lemma rank_val_nondecreasing N l i :
  N ≤ length l → nondecreasing N l → i < N → rank_val N l i = i.
Proof.
  intros HN Hnd Hi. unfold rank_val, make_index_sequence.
  rewrite lower_val_all, upper_val_none.
  - rewrite length_seq. lia.
  - apply Forall_forall. intros j Hj. apply elem_of_seq in Hj.
    rewrite gtb_geb, negb_false_iff.
    apply (nondecreasing_geb N); [done..|lia|lia].
  - apply Forall_forall. intros j Hj. apply elem_of_seq in Hj.
    apply (nondecreasing_geb N); [done..|lia|lia].
Qed.

Lemma sort_val_nondecreasing_id N l :
  N ≤ length l → nondecreasing N l → sort_val N l = take N l.
Proof.
  intros HN Hnd. apply list_eq. intros p.
  destruct (decide (p < N)) as [Hp|Hp].
  - rewrite lookup_take_lt, (lookup_elem l p) by lia.
    rewrite <- (rank_val_nondecreasing N l p HN Hnd Hp) at 1.
    by apply sort_val_at, Hp; apply rank_val_inj.
  - rewrite lookup_take_ge by lia.
    apply lookup_ge_None_2. rewrite length_sort_val. lia.
Qed.

(** Sorting the output again changes nothing. *)
Lemma sort_val_idempotent N l : sort_val N (sort_val N l) = sort_val N l.
Proof.
  rewrite sort_val_nondecreasing_id.
  - apply take_ge. by rewrite length_sort_val.
  - by rewrite length_sort_val.
  - apply sort_val_nondecreasing.
Qed.
End Order.

End RankSortFacts.

(** ** Further facts: failing runs, the access pattern, the order of ranks *)

Section RankSortFurther.
Context {A : Type} `{!Atom A}.
Implicit Types (s : store A) (l : list A) (N i j k p : nat).

(** *** What a run that returns has gone through *)

Lemma bind_inv {X Y} (m : M A X) (f : X → M A Y) s r :
  (m ≫= f) s = Some r → ∃ x s1, m s = Some (x, s1) ∧ f x s1 = Some r.
Proof. unfold mbind, M_bind. destruct (m s) as [[x s1]|]; [eauto|done]. Qed.

Lemma mret_inv {X} (x y : X) s s' : mret (M:=M A) x s = Some (y, s') → x = y ∧ s = s'.
Proof. unfold mret, M_ret. by intros [= -> ->]. Qed.

Lemma get_list_inv i s x s' :
  get_list i s = Some (x, s') → i < length (s_list s) ∧ s_list s' = s_list s.
Proof.
  unfold get_list. destruct (s_list s !! i) as [y|] eqn:Hy; [|done].
  intros [= -> <-]. split; [by eapply lookup_lt_Some|done].
Qed.

Lemma get_rank_inv i s r s' :
  get_rank i s = Some (r, s') → s_list s' = s_list s.
Proof.
  unfold get_rank. destruct (s_rank s !! i) as [y|]; [|done]. by intros [= -> <-].
Qed.

Lemma put_response_inv r x s u s' :
  put_response r x s = Some (u, s') → s_list s' = s_list s.
Proof. unfold put_response. case_decide; [|done]. by intros [= <- <-]. Qed.

Lemma sort_rank_l_inv i jseq s v s' :
  sort_rank_l i jseq s = Some (v, s') → s_list s' = s_list s.
Proof.
  revert s v. induction jseq as [|j jseq IH]; intros s v Hrun; simpl in Hrun.
  - by apply mret_inv in Hrun as [_ ->].
  - apply bind_inv in Hrun as (x & s1 & H1 & Hrun).
    apply bind_inv in Hrun as (y & s2 & H2 & Hrun).
    apply bind_inv in Hrun as (r & s3 & H3 & Hrun).
    apply mret_inv in Hrun as [_ <-].
    apply get_list_inv in H1 as [_ H1]. apply get_list_inv in H2 as [_ H2].
    apply IH in H3. congruence.
Qed.

Lemma sort_rank_u_inv i jseq s v s' :
  sort_rank_u i jseq s = Some (v, s') → s_list s' = s_list s.
Proof.
  revert s v. induction jseq as [|j jseq IH]; intros s v Hrun; simpl in Hrun.
  - by apply mret_inv in Hrun as [_ ->].
  - apply bind_inv in Hrun as (x & s1 & H1 & Hrun).
    apply bind_inv in Hrun as (y & s2 & H2 & Hrun).
    apply bind_inv in Hrun as (r & s3 & H3 & Hrun).
    apply mret_inv in Hrun as [_ <-].
    apply get_list_inv in H1 as [_ H1]. apply get_list_inv in H2 as [_ H2].
    apply IH in H3. congruence.
Qed.

Lemma rank_init_inv N iseq s rs s' :
  rank_init N iseq s = Some (rs, s') → s_list s' = s_list s.
Proof.
  revert s rs. induction iseq as [|i iseq IH]; intros s rs Hrun; simpl in Hrun.
  - by apply mret_inv in Hrun as [_ ->].
  - apply bind_inv in Hrun as (lo & s1 & H1 & Hrun).
    apply bind_inv in Hrun as (up & s2 & H2 & Hrun).
    apply bind_inv in Hrun as (rs' & s3 & H3 & Hrun).
    apply mret_inv in Hrun as [_ <-].
    apply sort_rank_l_inv in H1. apply sort_rank_u_inv in H2.
    apply IH in H3. congruence.
Qed.

(** The scatter step reads [list[I]] for every [I] it is given. *)
Lemma scatter_inv iseq s u s' :
  scatter iseq s = Some (u, s') → Forall (λ i, i < length (s_list s)) iseq.
Proof.
  revert s. induction iseq as [|i iseq IH]; intros s Hrun; simpl in Hrun.
  - constructor.
  - apply bind_inv in Hrun as (x & s1 & H1 & Hrun).
    apply bind_inv in Hrun as (r & s2 & H2 & Hrun).
    apply bind_inv in Hrun as (u' & s3 & H3 & Hrun).
    apply get_list_inv in H1 as [Hi H1]. apply get_rank_inv in H2.
    apply put_response_inv in H3. apply IH in Hrun.
    constructor; [done|]. by rewrite H3, H2, H1 in Hrun.
Qed.

Lemma sort_inv N s r : sort N s = Some r → N ≤ length (s_list s).
Proof.
  unfold sort, sort_impl. intros Hrun.
  apply bind_inv in Hrun as (rs & s1 & H1 & Hrun).
  apply bind_inv in Hrun as (u1 & s2 & H2 & Hrun).
  apply bind_inv in Hrun as (u2 & s3 & H3 & Hrun).
  apply bind_inv in Hrun as (u3 & s4 & H4 & _).
  apply rank_init_inv in H1. apply scatter_inv in H4.
  unfold set_rank in H2. unfold new_response in H3.
  injection H2 as _ <-. injection H3 as _ <-. simpl in H4. rewrite H1 in H4.
  destruct N as [|N]; [lia|].
  rewrite Forall_forall in H4. specialize (H4 N).
  unfold make_index_sequence in H4. rewrite elem_of_seq in H4. lia.
Qed.

(** *** Size and shape of the access trace *)

Lemma length_lower_trace i jseq : length (lower_trace i jseq) = 2 * length jseq.
Proof. induction jseq as [|j jseq IH]; simpl; [done|]. rewrite IH. lia. Qed.

Lemma length_upper_trace i jseq : length (upper_trace i jseq) = 2 * length jseq.
Proof. induction jseq as [|j jseq IH]; simpl; [done|]. rewrite IH. lia. Qed.

Lemma rank_trace_cons N i iseq :
  rank_trace N (i :: iseq)
  = (lower_trace i (make_index_sequence i)
     ++ upper_trace i (make_index_sequence (N - i - 1)))
    ++ rank_trace N iseq.
Proof. reflexivity. Qed.

Lemma length_rank_trace N iseq :
  Forall (λ i, i < N) iseq →
  length (rank_trace N iseq) = length iseq * (2 * (N - 1)).
Proof.
  induction 1 as [|i iseq Hi _ IH]; [done|].
  rewrite rank_trace_cons, !length_app, length_lower_trace, length_upper_trace.
  unfold make_index_sequence. rewrite !length_seq, IH. simpl. lia.
Qed.

Lemma length_scatter_trace rk iseq :
  length (scatter_trace rk iseq) = 3 * length iseq.
Proof. induction iseq as [|i iseq IH]; simpl; [done|]. rewrite IH. lia. Qed.

Lemma length_sort_trace N l :
  length (sort_trace N l) = N * (2 * (N - 1)) + 3 * N.
Proof.
  unfold sort_trace.
  rewrite length_app, length_rank_trace, length_scatter_trace
    by apply index_sequence_lt.
  unfold make_index_sequence. by rewrite length_seq.
Qed.

Lemma reads_lower_trace i jseq :
  List.filter is_read (lower_trace i jseq) = lower_trace i jseq.
Proof. induction jseq as [|j jseq IH]; simpl; [done|]. by rewrite IH. Qed.

Lemma reads_upper_trace i jseq :
  List.filter is_read (upper_trace i jseq) = upper_trace i jseq.
Proof. induction jseq as [|j jseq IH]; simpl; [done|]. by rewrite IH. Qed.

Lemma reads_rank_trace N iseq :
  List.filter is_read (rank_trace N iseq) = rank_trace N iseq.
Proof.
  induction iseq as [|i iseq IH]; [done|].
  rewrite rank_trace_cons, !List.filter_app.
  by rewrite reads_lower_trace, reads_upper_trace, IH.
Qed.

Lemma reads_scatter_trace rk iseq :
  List.filter is_read (scatter_trace rk iseq)
  = flat_map (λ i, [RdList i; RdRank i]) iseq.
Proof. induction iseq as [|i iseq IH]; simpl; [done|]. by rewrite IH. Qed.

(** The reads of a run depend on [N] alone. *)
Lemma reads_sort_trace N l :
  List.filter is_read (sort_trace N l)
  = rank_trace N (make_index_sequence N)
    ++ flat_map (λ i, [RdList i; RdRank i]) (make_index_sequence N).
Proof.
  unfold sort_trace.
  by rewrite List.filter_app, reads_rank_trace, reads_scatter_trace.
Qed.

Lemma written_app tr1 tr2 : written (tr1 ++ tr2) = written tr1 ++ written tr2.
Proof. unfold written. apply flat_map_app. Qed.

Lemma written_lower_trace i jseq : written (lower_trace i jseq) = [].
Proof. induction jseq as [|j jseq IH]; simpl; [done|]. exact IH. Qed.

Lemma written_upper_trace i jseq : written (upper_trace i jseq) = [].
Proof. induction jseq as [|j jseq IH]; simpl; [done|]. exact IH. Qed.

Lemma written_rank_trace N iseq : written (rank_trace N iseq) = [].
Proof.
  induction iseq as [|i iseq IH]; [done|].
  by rewrite rank_trace_cons, !written_app, written_lower_trace,
    written_upper_trace, IH.
Qed.

Lemma written_scatter_trace rk iseq :
  written (scatter_trace rk iseq) = (λ i, nth i rk 0) <$> iseq.
Proof.
  induction iseq as [|i iseq IH]; [done|].
  rewrite fmap_cons, <- IH. reflexivity.
Qed.

(** The [k]-th write goes to slot [rank[k]]. *)
Lemma written_sort_trace N l : written (sort_trace N l) = ranks_val N l.
Proof.
  unfold sort_trace.
  rewrite written_app, written_rank_trace, written_scatter_trace. simpl.
  apply list_eq. intros i. rewrite list_lookup_fmap.
  unfold make_index_sequence.
  destruct (decide (i < N)) as [Hi|Hi].
  - rewrite lookup_seq_lt by done. simpl.
    by rewrite nth_ranks_val, lookup_ranks_val.
  - rewrite !lookup_ge_None_2; [done|rewrite length_ranks_val; lia|].
    rewrite length_seq. lia.
Qed.

(** *** The output holds nothing but input elements and the initial value *)

Lemma scatter_val_Forall (P : A → Prop) l rk iseq resp :
  Forall (λ i, P (elem l i)) iseq → Forall P resp →
  Forall P (scatter_val l rk iseq resp).
Proof.
  intros Hseq. revert resp.
  induction Hseq as [|i iseq Hi _ IH]; intros resp Hresp; simpl; [done|].
  apply IH. by apply Forall_insert.
Qed.

Lemma sort_val_from_input N l :
  N ≤ length l →
  Forall (λ x, x ∈ take N l ∨ x = atom0) (sort_val N l).
Proof.
  intros HN. unfold sort_val. apply scatter_val_Forall.
  - apply Forall_forall. intros i Hi. apply elem_of_seq in Hi. left.
    apply list_elem_of_lookup. exists i.
    rewrite lookup_take_lt by lia. apply lookup_elem. lia.
  - apply Forall_replicate. by right.
Qed.

(** *** The copy under an arbitrary comparison *)

Lemma scatter_val_app l rk iseq1 iseq2 resp :
  scatter_val l rk (iseq1 ++ iseq2) resp
  = scatter_val l rk iseq2 (scatter_val l rk iseq1 resp).
Proof.
  revert resp. induction iseq1 as [|i iseq1 IH]; intros resp; simpl; [done|].
  apply IH.
Qed.

(** A slot holds what the last index ranked there put into it. *)
Lemma sort_val_last_writer N l i :
  i < N →
  (∀ k, i < k → k < N → rank_val N l k ≠ rank_val N l i) →
  sort_val N l !! rank_val N l i = Some (elem l i).
Proof.
  intros Hi Hlast. unfold sort_val, make_index_sequence.
  assert (Hseq : seq 0 N = seq 0 i ++ [i] ++ seq (S i) (N - S i)).
  { replace N with (i + (1 + (N - S i))) at 1 by lia.
    rewrite seq_app. reflexivity. }
  rewrite Hseq, !scatter_val_app. simpl.
  rewrite scatter_val_other.
  - rewrite nth_ranks_val by done. apply list_lookup_insert_eq.
    rewrite length_scatter_val, length_replicate. by apply rank_val_lt.
  - apply Forall_forall. intros k Hk. apply elem_of_seq in Hk.
    rewrite nth_ranks_val by lia. apply Hlast; lia.
Qed.

(** A slot that is the rank of no index keeps the initial value. *)
Lemma sort_val_unused N l p :
  p < N → (∀ i, i < N → rank_val N l i ≠ p) →
  sort_val N l !! p = Some atom0.
Proof.
  intros Hp Hfree. unfold sort_val. rewrite scatter_val_other.
  - by apply lookup_replicate_2.
  - apply Forall_forall. intros i Hi. apply elem_of_seq in Hi.
    rewrite nth_ranks_val by lia. apply Hfree. lia.
Qed.

(** *** The two passes on an arbitrary index pack *)

Lemma sort_rank_l_run_frame i jseq s :
  i < length (s_list s) →
  Forall (λ j, j < length (s_list s)) jseq →
  ∃ s', sort_rank_l i jseq s
        = Some (length (List.filter
                          (λ j, geb (elem (s_list s) i) (elem (s_list s) j))
                          jseq), s')
    ∧ s_list s' = s_list s ∧ s_rank s' = s_rank s
    ∧ s_response s' = s_response s.
Proof.
  intros Hi Hj. rewrite sort_rank_l_run, lower_val_filter by done.
  by eexists.
Qed.

Lemma sort_rank_u_run_frame i jseq s :
  i < length (s_list s) →
  Forall (λ j, 1 + i + j < length (s_list s)) jseq →
  ∃ s', sort_rank_u i jseq s
        = Some (length (List.filter
                          (λ k, gtb (elem (s_list s) i) (elem (s_list s) k))
                          (map (Nat.add (1 + i)) jseq)), s')
    ∧ s_list s' = s_list s ∧ s_rank s' = s_rank s
    ∧ s_response s' = s_response s.
Proof.
  intros Hi Hj. rewrite sort_rank_u_run, upper_val_filter by done.
  by eexists.
Qed.

End RankSortFurther.

Section RankSortOrderFurther.
Context {A : Type} `{!Atom A} `{!AtomOrder A}.
Implicit Types (s : store A) (l : list A) (N i j k p : nat).

(** The ranks order the indices by value, ties by position. *)
Lemma rank_val_lt_iff N l i k :
  i < N → k < N →
  rank_val N l i < rank_val N l k
  ↔ gtb (elem l k) (elem l i) = true
    ∨ (geb (elem l k) (elem l i) = true ∧ i < k).
Proof.
  intros Hi Hk. rewrite gtb_geb, negb_true_iff, <- placed_before_iff.
  split; [by apply rank_val_lt_before|by apply rank_val_mono].
Qed.

Global Instance atom_le_trans : Transitive (atom_le (A:=A)).
Proof. intros x y z Hxy Hyz. unfold atom_le in *. by eapply geb_trans. Qed.

Lemma adjacent_Sorted (R : relation A) (xs : list A) :
  (∀ p x y, xs !! p = Some x → xs !! (p + 1) = Some y → R x y) →
  Sorted R xs.
Proof.
  induction xs as [|x xs IH]; intros Hadj; constructor.
  - apply IH. intros p y z Hy Hz. apply (Hadj (S p)); done.
  - destruct xs as [|y xs]; constructor. by apply (Hadj 0).
Qed.

Lemma sort_val_Sorted N l : Sorted atom_le (sort_val N l).
Proof.
  apply adjacent_Sorted. intros p x y Hx Hy.
  apply (sort_val_nondecreasing N l p); [|done..].
  apply lookup_lt_Some in Hy. by rewrite length_sort_val in Hy.
Qed.

Lemma sort_val_StronglySorted N l : StronglySorted atom_le (sort_val N l).
Proof.
  apply (Sorted_StronglySorted atom_le (sort_val N l)), sort_val_Sorted.
Qed.

(** With an antisymmetric comparison the output is fixed by the multiset of
    the first [N] elements. *)
Lemma sort_val_Permutation_eq N l1 l2 :
  (∀ x y : A, geb x y = true → geb y x = true → x = y) →
  N ≤ length l1 → N ≤ length l2 → take N l1 ≡ₚ take N l2 →
  sort_val N l1 = sort_val N l2.
Proof.
  intros Hanti H1 H2 Hperm.
  apply (Sorted_unique_strong atom_le); [|apply sort_val_Sorted..|].
  - intros x y _ _ Hxy Hyx. by apply Hanti.
  - rewrite (sort_val_Permutation N l1 (rank_val_inj N l1) H1).
    by rewrite (sort_val_Permutation N l2 (rank_val_inj N l2) H2).
Qed.

(** *** A strictly decreasing input comes out reversed *)








End RankSortOrderFurther.

(** *** The value [response] is initialised with *)

Section InitialValue.
Context {A : Type} (g t : A → A → bool) (d1 d2 : A).
Implicit Types (l : list A) (N i j k p : nat).

Local Abbreviation a1 := (Build_Atom A g t d1).
Local Abbreviation a2 := (Build_Atom A g t d2).

Lemma elem_initial l i :
  i < length l → elem (Atom0:=a1) l i = elem (Atom0:=a2) l i.
Proof.
  intros Hi. destruct (lookup_lt_is_Some_2 _ _ Hi) as [x Hx].
  unfold elem. by rewrite !(nth_lookup_Some _ _ _ _ Hx).
Qed.

Lemma lower_val_initial l i jseq :
  i < length l → Forall (λ j, j < length l) jseq →
  lower_val (Atom0:=a1) l i jseq = lower_val (Atom0:=a2) l i jseq.
Proof.
  intros Hi. induction 1 as [|j jseq Hj _ IH]; simpl; [done|].
  by rewrite IH, (elem_initial l i), (elem_initial l j).
Qed.

Lemma upper_val_initial l i jseq :
  i < length l → Forall (λ j, 1 + i + j < length l) jseq →
  upper_val (Atom0:=a1) l i jseq = upper_val (Atom0:=a2) l i jseq.
Proof.
  intros Hi. induction 1 as [|j jseq Hj _ IH]; simpl; [done|].
  by rewrite IH, (elem_initial l i), (elem_initial l (S (i + j))).
Qed.

Lemma rank_val_initial N l i :
  N ≤ length l → i < N →
  rank_val (Atom0:=a1) N l i = rank_val (Atom0:=a2) N l i.
Proof.
  intros HN Hi. unfold rank_val.
  rewrite lower_val_initial, upper_val_initial; [done|lia| |lia|].
  - by apply upper_index_ok.
  - apply lower_index_ok. lia.
Qed.

Lemma atom_order_initial : AtomOrder A (Atom0:=a1) → AtomOrder A (Atom0:=a2).
Proof. intros [H1 H2 H3]. split; [exact H1|exact H2|exact H3]. Qed.

(** Under a total preorder every slot is overwritten, so the initial value
    does not show. *)
Lemma sort_val_initial N l :
  AtomOrder A (Atom0:=a1) → N ≤ length l →
  sort_val (Atom0:=a1) N l = sort_val (Atom0:=a2) N l.
Proof.
  intros Hord1 HN. pose proof (atom_order_initial Hord1) as Hord2.
  apply list_eq. intros p. destruct (decide (p < N)) as [Hp|Hp].
  - destruct (rank_val_surj (Atom0:=a1) N l (rank_val_inj N l) p Hp)
      as (i & Hi & Hr).
    rewrite <- Hr at 1. rewrite sort_val_at by (done || apply rank_val_inj).
    rewrite (rank_val_initial N l i HN Hi) in Hr. rewrite <- Hr.
    rewrite sort_val_at by (done || apply rank_val_inj).
    f_equal. apply elem_initial. lia.
  - rewrite !lookup_ge_None_2; [done|rewrite length_sort_val; lia..].
Qed.

End InitialValue.

(** ** The integers of the usage example form an instance *)

Global Instance Z_atom_order : AtomOrder Z.
Proof.
  split; simpl.
  - intros x y. rewrite !Z.geb_le. lia.
  - intros x y z. rewrite !Z.geb_le. lia.
  - intros x y. rewrite Z.gtb_ltb, Z.geb_leb. apply Z.ltb_antisym.
Qed.

(** Without totality the ranks can collide: two unordered elements both get
    rank [0], and the second output slot keeps its initial value. *)
Example unordered_ranks_collide :
  (λ r, (r.1, s_rank r.2)) <$> @run_sort _ unordered_atom 2 [None; None]
  = Some ([None; Some 0%Z], [0; 0]).
Proof. reflexivity. Qed.

(** * The properties of [sort<N>] *)

(** Runs the call with [sort_run] and exposes the returned sequence and the
    final store. *)
Ltac run_sort_with HN :=
  unfold run_sort; rewrite sort_run by exact HN;
  eexists _, _; split; [reflexivity|];
  cbn [s_rank s_list s_trace s_response call_store].

(** C1.  Sortedness: on an input holding at least [N] comparable elements
    the call returns, and any two adjacent positions [p], [p + 1] of the
    returned sequence satisfy [output[p] <= output[p+1]]. *)
Theorem sort_sorted {A : Type} `{!Atom A} `{!AtomOrder A} (N : nat) (l : list A) :
  N ≤ length l →
  ∃ out s', run_sort N l = Some (out, s') ∧ length out = N ∧
    ∀ p, p + 1 < N →
      ∃ x y, out !! p = Some x ∧ out !! (p + 1) = Some y ∧ geb y x = true.
Proof.
  intros HN. run_sort_with HN. split; [apply length_sort_val|].
  apply sort_val_adjacent.
Qed.

Lemma sort_sorted_witness :
  ∃ out s', run_sort 6 known = Some (out, s') ∧ length out = 6 ∧
    ∀ p, p + 1 < 6 →
      ∃ x y, out !! p = Some x ∧ out !! (p + 1) = Some y ∧ geb y x = true.
Proof. apply (@sort_sorted Z Z_atom Z_atom_order 6 known). simpl. lia. Defined.

(** C2.  Permutation: the returned sequence is a rearrangement of the first
    [N] elements of the input, with the same multiplicity of every value. *)
Theorem sort_permutation {A : Type} `{!Atom A} `{!AtomOrder A}
    (N : nat) (l : list A) :
  N ≤ length l →
  ∃ out s', run_sort N l = Some (out, s') ∧ out ≡ₚ take N l.
Proof.
  intros HN. run_sort_with HN.
  by apply sort_val_Permutation; [apply rank_val_inj|].
Qed.

Lemma sort_permutation_witness :
  ∃ out s', run_sort 3 [2; 2; 1]%Z = Some (out, s') ∧ out ≡ₚ take 3 [2; 2; 1]%Z.
Proof.
  apply (@sort_permutation Z Z_atom Z_atom_order 3 [2; 2; 1]%Z). simpl. lia.
Defined.

(** C3.  The rank array left by the call is a permutation of [0..N-1], also
    when values repeat: every destination index is the rank of exactly one
    source index. *)
Theorem rank_is_permutation {A : Type} `{!Atom A} `{!AtomOrder A}
    (N : nat) (l : list A) :
  N ≤ length l →
  ∃ out s', run_sort N l = Some (out, s') ∧ s_rank s' ≡ₚ seq 0 N ∧
    ∀ p, p < N →
      ∃ i, s_rank s' !! i = Some p ∧ ∀ k, s_rank s' !! k = Some p → k = i.
Proof.
  intros HN. run_sort_with HN. split; [by apply ranks_val_Permutation, rank_val_inj|].
  intros p Hp.
  destruct (rank_val_surj N l (rank_val_inj N l) p Hp) as (i & Hi & Hr).
  exists i. split; [by rewrite lookup_ranks_val, Hr|].
  intros k Hk.
  assert (Hlt : k < N).
  { apply lookup_lt_Some in Hk. by rewrite length_ranks_val in Hk. }
  rewrite lookup_ranks_val in Hk by done. injection Hk as Hk.
  apply (rank_val_inj N l); [done..|congruence].
Qed.

Lemma rank_is_permutation_witness :
  ∃ out s', run_sort 3 [3; 3; 3]%Z = Some (out, s') ∧ s_rank s' ≡ₚ seq 0 3 ∧
    ∀ p, p < 3 →
      ∃ i, s_rank s' !! i = Some p ∧ ∀ k, s_rank s' !! k = Some p → k = i.
Proof.
  apply (@rank_is_permutation Z Z_atom Z_atom_order 3 [3; 3; 3]%Z). simpl. lia.
Defined.

(** C4.  The rank computed for index [i] is the number of earlier indices
    [j < i] with [element[i] >= element[j]] plus the number of later indices
    [k > i] with [element[i] > element[k]]. *)
Theorem rank_is_count {A : Type} `{!Atom A} (N : nat) (l : list A) :
  N ≤ length l →
  ∃ out s', run_sort N l = Some (out, s') ∧
    ∀ i, i < N → s_rank s' !! i = Some (rank_spec N l i).
Proof.
  intros HN. run_sort_with HN. intros i Hi.
  by rewrite lookup_ranks_val, rank_val_spec.
Qed.

Lemma rank_is_count_witness :
  ∃ out s', run_sort 6 known = Some (out, s') ∧
    ∀ i, i < 6 → s_rank s' !! i = Some (rank_spec 6 known i).
Proof. apply (@rank_is_count Z Z_atom 6 known). simpl. lia. Defined.

(** C5.  The returned sequence has exactly [N] elements; with [N = 0] the
    call returns the empty sequence. *)
Theorem sort_length {A : Type} `{!Atom A} (N : nat) (l : list A) :
  N ≤ length l →
  ∃ out s', run_sort N l = Some (out, s') ∧ length out = N ∧
    (N = 0 → out = []).
Proof.
  intros HN. run_sort_with HN. split; [apply length_sort_val|].
  by intros ->.
Qed.

Lemma sort_length_witness :
  ∃ out s', run_sort 0 known = Some (out, s') ∧ length out = 0 ∧
    (0 = 0 → out = []).
Proof. apply (@sort_length Z Z_atom 0 known). simpl. lia. Defined.

(** C6.  Stability: when the elements at two indices [i < k] compare equal,
    the rank of [i] is below the rank of [k], and each of the two elements
    sits in the output at its own rank, so they keep their input order. *)
Theorem equal_keep_order {A : Type} `{!Atom A} `{!AtomOrder A}
    (N : nat) (l : list A) (i k : nat) (x y : A) :
  N ≤ length l → i < k → k < N →
  l !! i = Some x → l !! k = Some y →
  geb x y = true → geb y x = true →
  ∃ out s', run_sort N l = Some (out, s') ∧
    ∃ ri rk, s_rank s' !! i = Some ri ∧ s_rank s' !! k = Some rk ∧ ri < rk ∧
             out !! ri = Some x ∧ out !! rk = Some y.
Proof.
  intros HN Hik Hk Hx Hy Hxy Hyx. run_sort_with HN.
  assert (Hi : i < N) by lia.
  apply (nth_lookup_Some _ _ atom0) in Hx, Hy. fold (elem l i) in Hx.
  fold (elem l k) in Hy. subst x y.
  exists (rank_val N l i), (rank_val N l k).
  rewrite !lookup_ranks_val by done.
  rewrite (sort_val_at N l (rank_val_inj N l) i Hi).
  rewrite (sort_val_at N l (rank_val_inj N l) k Hk).
  split_and!; [done..| |done|done]. by apply rank_val_stable.
Qed.

Lemma equal_keep_order_witness :
  ∃ out s', run_sort 3 [2; 2; 1]%Z = Some (out, s') ∧
    ∃ ri rk, s_rank s' !! 0 = Some ri ∧ s_rank s' !! 1 = Some rk ∧ ri < rk ∧
             out !! ri = Some 2%Z ∧ out !! rk = Some 2%Z.
Proof.
  apply (@equal_keep_order Z Z_atom Z_atom_order 3 [2; 2; 1]%Z 0 1 2%Z 2%Z);
    simpl; first [lia | reflexivity].
Defined.

(** C7.  Idempotence: a call on an input [l] whose first [N] elements are
    already in non-decreasing order returns exactly those elements; and for
    any input [m], sorting the sequence that the call returned gives that
    sequence back unchanged. *)
Theorem sort_idempotent {A : Type} `{!Atom A} `{!AtomOrder A}
    (N : nat) (l m : list A) :
  N ≤ length l → nondecreasing N l → N ≤ length m →
  (∃ s', run_sort N l = Some (take N l, s')) ∧
  (∃ out s1 s2, run_sort N m = Some (out, s1) ∧ run_sort N out = Some (out, s2)).
Proof.
  intros Hl Hnd Hm. unfold run_sort. split.
  - rewrite sort_run by done. cbn [s_list call_store].
    rewrite sort_val_nondecreasing_id by done. by eexists.
  - rewrite sort_run by done. cbn [s_list call_store].
    eexists _, _, _. split; [reflexivity|].
    rewrite sort_run by (cbn [s_list call_store]; by rewrite length_sort_val).
    cbn [s_list call_store]. by rewrite sort_val_idempotent.
Qed.

Lemma sort_idempotent_witness :
  (∃ s', run_sort 3 [1; 2; 2; 0]%Z = Some (take 3 [1; 2; 2; 0]%Z, s')) ∧
  (∃ out s1 s2, run_sort 3 [2; 2; 1]%Z = Some (out, s1)
                ∧ run_sort 3 out = Some (out, s2)).
Proof.
  apply (@sort_idempotent Z Z_atom Z_atom_order 3 [1; 2; 2; 0]%Z [2; 2; 1]%Z).
  - simpl. lia.
  - intros [|[|p]] x y Hp Hx Hy; simpl in *; [by simplify_eq..|lia].
  - simpl. lia.
Defined.

(** C8.  No side effect on the argument: from any store, the call leaves the
    caller's sequence as it found it, and what it returns is determined by
    that sequence alone, whatever the locals held before. *)
Theorem sort_keeps_input {A : Type} `{!Atom A} (N : nat) (s : store A) :
  N ≤ length (s_list s) →
  ∃ out s', sort N s = Some (out, s') ∧ s_list s' = s_list s ∧
    ∀ t, s_list t = s_list s →
      ∃ t', sort N t = Some (out, t') ∧ s_list t' = s_list t.
Proof.
  intros HN. rewrite sort_run by done.
  eexists _, _. split; [reflexivity|]. split; [reflexivity|].
  intros t Ht. rewrite sort_run by (by rewrite Ht).
  rewrite Ht. by eexists.
Qed.

Lemma sort_keeps_input_witness :
  ∃ out s', sort 6 (Store known [7; 7] [0%Z] [RdRank 9]) = Some (out, s') ∧
    s_list s' = known ∧
    ∀ t, s_list t = known →
      ∃ t', sort 6 t = Some (out, t') ∧ s_list t' = s_list t.
Proof.
  apply (@sort_keeps_input Z Z_atom 6 (Store known [7; 7] [0%Z] [RdRank 9])).
  simpl. lia.
Defined.

(** C9.  Memory safety: on an input of length at least [N] no access of the
    call falls outside its array (the call returns), and every index used on
    [list], [rank] and [response] lies in [0..N-1]. *)
Theorem sort_accesses_in_bounds {A : Type} `{!Atom A} (N : nat) (l : list A) :
  N ≤ length l →
  ∃ out s', run_sort N l = Some (out, s') ∧ in_bounds N (s_trace s').
Proof.
  intros HN. run_sort_with HN. apply sort_trace_in_bounds.
Qed.

Lemma sort_accesses_in_bounds_witness :
  ∃ out s', run_sort 3 known = Some (out, s') ∧ in_bounds 3 (s_trace s').
Proof. apply (@sort_accesses_in_bounds Z Z_atom 3 known). simpl. lia. Defined.

(** C10.  Two inputs that agree on the indices [0..N-1] are sorted to the
    same sequence, whatever they hold from index [N] on. *)
Theorem sort_first_N_only {A : Type} `{!Atom A} (N : nat) (l1 l2 : list A) :
  N ≤ length l1 → N ≤ length l2 → agree N l1 l2 →
  ∃ out s1 s2, run_sort N l1 = Some (out, s1) ∧ run_sort N l2 = Some (out, s2).
Proof.
  intros H1 H2 Hag. unfold run_sort. rewrite !sort_run by done.
  cbn [s_list call_store]. rewrite (sort_val_agree N l1 l2 Hag).
  by eexists _, _, _.
Qed.

Lemma sort_first_N_only_witness :
  ∃ out s1 s2,
    run_sort 2 [4; 1; 8]%Z = Some (out, s1) ∧
    run_sort 2 [4; 1; 0; 3]%Z = Some (out, s2).
Proof.
  apply (@sort_first_N_only Z Z_atom 2 [4; 1; 8]%Z [4; 1; 0; 3]%Z).
  - simpl. lia.
  - simpl. lia.
  - intros [|[|i]] Hi; [reflexivity..|lia].
Defined.

(** * Further properties of the routine *)

(** X1.  The call returns exactly when the caller's storage holds at least
    [N] elements; on a shorter input some read of [list] falls out of bounds
    and the run has no result. *)
Theorem sort_returns_iff {A : Type} `{!Atom A} (N : nat) (l : list A) :
  is_Some (run_sort N l) ↔ N ≤ length l.
Proof.
  split.
  - intros [r Hr]. by apply sort_inv in Hr.
  - intros HN. unfold run_sort. rewrite sort_run by done. by eexists.
Qed.

(** X2.  The number of accesses is fixed by [N]: each of the [N] indices is
    compared with each of the other [N - 1], two reads of [list] per
    comparison, and the copy makes one read of [list], one read of [rank]
    and one write of [response] per index. *)
Theorem sort_access_count {A : Type} `{!Atom A} (N : nat) (l : list A) :
  N ≤ length l →
  ∃ out s', run_sort N l = Some (out, s') ∧
    length (s_trace s') = N * (2 * (N - 1)) + 3 * N ∧
    length (written (s_trace s')) = N.
Proof.
  intros HN. run_sort_with HN. rewrite app_nil_l. split.
  - apply length_sort_trace.
  - by rewrite written_sort_trace, length_ranks_val.
Qed.

Lemma sort_access_count_witness :
  ∃ out s', run_sort 6 known = Some (out, s') ∧
    length (s_trace s') = 6 * (2 * (6 - 1)) + 3 * 6 ∧
    length (written (s_trace s')) = 6.
Proof. apply (@sort_access_count Z Z_atom 6 known). simpl. lia. Defined.

(** X3.  The reads are data independent: two runs with the same [N] read
    the same indices of [list] and [rank] in the same order, whatever the
    inputs hold and however the comparison behaves. *)
Theorem sort_reads_data_independent {A : Type} `{!Atom A}
    (N : nat) (l1 l2 : list A) :
  N ≤ length l1 → N ≤ length l2 →
  ∃ out1 s1 out2 s2,
    run_sort N l1 = Some (out1, s1) ∧ run_sort N l2 = Some (out2, s2) ∧
    List.filter is_read (s_trace s1) = List.filter is_read (s_trace s2).
Proof.
  intros H1 H2. unfold run_sort. rewrite !sort_run by done.
  eexists _, _, _, _. split_and!; [done..|].
  cbn [s_trace s_list call_store]. rewrite !app_nil_l.
  by rewrite !reads_sort_trace.
Qed.

Lemma sort_reads_data_independent_witness :
  ∃ out1 s1 out2 s2,
    run_sort 3 [2; 2; 1]%Z = Some (out1, s1) ∧
    run_sort 3 [9; 0; 4; 7]%Z = Some (out2, s2) ∧
    List.filter is_read (s_trace s1) = List.filter is_read (s_trace s2).
Proof.
  apply (@sort_reads_data_independent Z Z_atom 3 [2; 2; 1]%Z [9; 0; 4; 7]%Z);
    simpl; lia.
Defined.

(** X4.  Whatever the comparison does, the output holds nothing but elements
    taken from the first [N] of the input and the value [response] was
    initialised with. *)
Theorem sort_invents_nothing {A : Type} `{!Atom A} (N : nat) (l : list A) :
  N ≤ length l →
  ∃ out s', run_sort N l = Some (out, s') ∧
    Forall (λ x, x ∈ take N l ∨ x = atom0) out.
Proof.
  intros HN. run_sort_with HN. by apply sort_val_from_input.
Qed.

Lemma sort_invents_nothing_witness :
  ∃ out s', @run_sort _ unordered_atom 2 [None; Some 4%Z] = Some (out, s') ∧
    Forall (λ x, x ∈ take 2 [None; Some 4%Z] ∨ x = @atom0 _ unordered_atom) out.
Proof.
  apply (@sort_invents_nothing _ unordered_atom 2 [None; Some 4%Z]). simpl. lia.
Defined.

(** X5.  Under a total preorder the copy writes every slot of [response]
    exactly once: the slots written, in the order of the writes, are the
    rank array, and they are a rearrangement of [0..N-1]. *)
Theorem sort_writes_each_slot_once {A : Type} `{!Atom A} `{!AtomOrder A}
    (N : nat) (l : list A) :
  N ≤ length l →
  ∃ out s', run_sort N l = Some (out, s') ∧
    written (s_trace s') = s_rank s' ∧ written (s_trace s') ≡ₚ seq 0 N.
Proof.
  intros HN. run_sort_with HN. rewrite app_nil_l, written_sort_trace.
  split; [done|]. apply ranks_val_Permutation, rank_val_inj.
Qed.

Lemma sort_writes_each_slot_once_witness :
  ∃ out s', run_sort 3 [3; 3; 3]%Z = Some (out, s') ∧
    written (s_trace s') = s_rank s' ∧ written (s_trace s') ≡ₚ seq 0 3.
Proof.
  apply (@sort_writes_each_slot_once Z Z_atom Z_atom_order 3 [3; 3; 3]%Z).
  simpl. lia.
Defined.

(** X6.  Under a total preorder the element at every source index [i < N]
    is found in the output at position [rank[i]], which is below [N]. *)
Theorem element_lands_at_rank {A : Type} `{!Atom A} `{!AtomOrder A}
    (N : nat) (l : list A) (i : nat) (x : A) :
  N ≤ length l → i < N → l !! i = Some x →
  ∃ out s', run_sort N l = Some (out, s') ∧
    ∃ r, s_rank s' !! i = Some r ∧ r < N ∧ out !! r = Some x.
Proof.
  intros HN Hi Hx. run_sort_with HN. exists (rank_val N l i).
  rewrite lookup_ranks_val by done.
  rewrite (sort_val_at N l (rank_val_inj N l) i Hi).
  apply (nth_lookup_Some _ _ atom0) in Hx. fold (elem l i) in Hx. subst x.
  split_and!; [done| |done]. by apply rank_val_lt.
Qed.

Lemma element_lands_at_rank_witness :
  ∃ out s', run_sort 6 known = Some (out, s') ∧
    ∃ r, s_rank s' !! 4 = Some r ∧ r < 6 ∧ out !! r = Some (-5)%Z.
Proof.
  apply (@element_lands_at_rank Z Z_atom Z_atom_order 6 known 4 (-5)%Z);
    simpl; first [lia | reflexivity].
Defined.

(** X7.  Under a total preorder the ranks order the indices by value and,
    among equal values, by position: [rank[i] < rank[k]] exactly when
    [list[k] > list[i]], or [list[k] >= list[i]] and [i < k]. *)
Theorem rank_order {A : Type} `{!Atom A} `{!AtomOrder A}
    (N : nat) (l : list A) (i k : nat) (x y : A) :
  N ≤ length l → i < N → k < N → l !! i = Some x → l !! k = Some y →
  ∃ out s', run_sort N l = Some (out, s') ∧
    ∃ ri rk, s_rank s' !! i = Some ri ∧ s_rank s' !! k = Some rk ∧
      (ri < rk ↔ gtb y x = true ∨ (geb y x = true ∧ i < k)).
Proof.
  intros HN Hi Hk Hx Hy. run_sort_with HN.
  exists (rank_val N l i), (rank_val N l k).
  rewrite !lookup_ranks_val by done. split_and!; [done..|].
  apply (nth_lookup_Some _ _ atom0) in Hx, Hy. fold (elem l i) in Hx.
  fold (elem l k) in Hy. subst x y. by apply rank_val_lt_iff.
Qed.

Lemma rank_order_witness :
  ∃ out s', run_sort 6 known = Some (out, s') ∧
    ∃ ri rk, s_rank s' !! 2 = Some ri ∧ s_rank s' !! 1 = Some rk ∧
      (ri < rk ↔ gtb 7%Z 3%Z = true ∨ (geb 7%Z 3%Z = true ∧ 2 < 1)).
Proof.
  apply (@rank_order Z Z_atom Z_atom_order 6 known 2 1 3%Z 7%Z);
    simpl; first [lia | reflexivity].
Defined.

(** X8.  Under a total preorder the output is sorted pairwise, not only
    between neighbours: every element is [<=] every element after it. *)
Theorem sort_strongly_sorted {A : Type} `{!Atom A} `{!AtomOrder A}
    (N : nat) (l : list A) :
  N ≤ length l →
  ∃ out s', run_sort N l = Some (out, s') ∧ StronglySorted atom_le out.
Proof.
  intros HN. run_sort_with HN. apply sort_val_StronglySorted.
Qed.

Lemma sort_strongly_sorted_witness :
  ∃ out s', run_sort 6 known = Some (out, s') ∧ StronglySorted atom_le out.
Proof.
  apply (@sort_strongly_sorted Z Z_atom Z_atom_order 6 known). simpl. lia.
Defined.

(** X9.  When the comparison is also antisymmetric, the output depends only
    on which values the first [N] elements are, not on their arrangement:
    two inputs whose first [N] elements are rearrangements of each other are
    sorted to the same sequence. *)
Theorem sort_permutation_invariant {A : Type} `{!Atom A} `{!AtomOrder A}
    (N : nat) (l1 l2 : list A) :
  (∀ x y : A, geb x y = true → geb y x = true → x = y) →
  N ≤ length l1 → N ≤ length l2 → take N l1 ≡ₚ take N l2 →
  ∃ out s1 s2, run_sort N l1 = Some (out, s1) ∧ run_sort N l2 = Some (out, s2).
Proof.
  intros Hanti H1 H2 Hperm. unfold run_sort. rewrite !sort_run by done.
  cbn [s_list call_store].
  rewrite (sort_val_Permutation_eq N l1 l2 Hanti H1 H2 Hperm).
  by eexists _, _, _.
Qed.

Lemma sort_permutation_invariant_witness :
  ∃ out s1 s2,
    run_sort 3 [2; 1; 3]%Z = Some (out, s1) ∧
    run_sort 3 [1; 2; 3; 9]%Z = Some (out, s2).
Proof.
  apply (@sort_permutation_invariant Z Z_atom Z_atom_order 3
           [2; 1; 3]%Z [1; 2; 3; 9]%Z).
  - intros x y. simpl. rewrite !Z.geb_le. lia.
  - simpl. lia.
  - simpl. lia.
  - simpl. apply perm_swap.
Defined.

(** X10.  Under a total preorder the value that [response] is initialised
    with never reaches the caller: two element types that differ only in
    that value are sorted to the same output. *)
Theorem sort_ignores_initial_value {A : Type} (g t : A → A → bool) (d1 d2 : A)
    (N : nat) (l : list A) :
  AtomOrder A (Atom0 := Build_Atom A g t d1) → N ≤ length l →
  ∃ out s1 s2,
    run_sort (Atom0 := Build_Atom A g t d1) N l = Some (out, s1) ∧
    run_sort (Atom0 := Build_Atom A g t d2) N l = Some (out, s2).
Proof.
  intros Hord HN. unfold run_sort. rewrite !sort_run by done.
  cbn [s_list call_store]. rewrite (sort_val_initial g t d1 d2 N l Hord HN).
  by eexists _, _, _.
Qed.

Lemma sort_ignores_initial_value_witness :
  ∃ out s1 s2,
    run_sort (Atom0 := Build_Atom Z Z.geb Z.gtb 0%Z) 6 known = Some (out, s1) ∧
    run_sort (Atom0 := Build_Atom Z Z.geb Z.gtb 7%Z) 6 known = Some (out, s2).
Proof.
  apply (@sort_ignores_initial_value Z Z.geb Z.gtb 0%Z 7%Z 6 known).
  - exact Z_atom_order.
  - simpl. lia.
Defined.



(** X12.  What the copy does under an arbitrary comparison, lawful or not:
    a slot holds the element of the last source index ranked there, and a
    slot that is the rank of no index keeps the value [response] was
    initialised with. *)
Theorem sort_last_writer_wins {A : Type} `{!Atom A} (N : nat) (l : list A) :
  N ≤ length l →
  ∃ out s', run_sort N l = Some (out, s') ∧
    (∀ i x r, l !! i = Some x → s_rank s' !! i = Some r →
       (∀ k, i < k → s_rank s' !! k ≠ Some r) → out !! r = Some x) ∧
    (∀ p, p < N → (∀ i, s_rank s' !! i ≠ Some p) → out !! p = Some atom0).
Proof.
  intros HN. run_sort_with HN. split.
  - intros i x r Hx Hr Hlast.
    assert (Hi : i < N).
    { apply lookup_lt_Some in Hr. by rewrite length_ranks_val in Hr. }
    rewrite lookup_ranks_val in Hr by done. injection Hr as <-.
    apply (nth_lookup_Some _ _ atom0) in Hx. fold (elem l i) in Hx. subst x.
    apply sort_val_last_writer; [done|]. intros k Hik Hk Heq.
    apply (Hlast k Hik). by rewrite lookup_ranks_val, Heq.
  - intros p Hp Hfree. apply sort_val_unused; [done|]. intros i Hi Heq.
    apply (Hfree i). by rewrite lookup_ranks_val, Heq.
Qed.

Lemma sort_last_writer_wins_witness :
  ∃ out s', @run_sort _ unordered_atom 2 [None; Some 4%Z] = Some (out, s') ∧
    (∀ i x r, [None; Some 4%Z] !! i = Some x → s_rank s' !! i = Some r →
       (∀ k, i < k → s_rank s' !! k ≠ Some r) → out !! r = Some x) ∧
    (∀ p, p < 2 → (∀ i, s_rank s' !! i ≠ Some p) →
       out !! p = Some (@atom0 _ unordered_atom)).
Proof.
  apply (@sort_last_writer_wins _ unordered_atom 2 [None; Some 4%Z]).
  simpl. lia.
Defined.

(** X13.  The lower pass on any index pack: when [I] and every [J] of the
    pack index into [list], [sort_rank_l<I>] returns the number of [J] in the
    pack with [list[I] >= list[J]], which is at most the size of the pack,
    and leaves [list], [rank] and [response] as they were. *)
Theorem sort_rank_l_counts {A : Type} `{!Atom A}
    (i : nat) (jseq : list nat) (s : store A) :
  i < length (s_list s) →
  Forall (λ j, j < length (s_list s)) jseq →
  ∃ n s', sort_rank_l i jseq s = Some (n, s') ∧
    n = length (List.filter
                  (λ j, geb (elem (s_list s) i) (elem (s_list s) j)) jseq) ∧
    n ≤ length jseq ∧
    s_list s' = s_list s ∧ s_rank s' = s_rank s ∧
    s_response s' = s_response s.
Proof.
  intros Hi Hj.
  destruct (sort_rank_l_run_frame i jseq s Hi Hj) as (s' & Hrun & Hframe).
  eexists _, s'. split; [exact Hrun|]. split; [done|]. split; [|done].
  rewrite <- lower_val_filter. apply lower_val_le.
Qed.

Lemma sort_rank_l_counts_witness :
  ∃ n s', sort_rank_l 2 [0; 1; 5] (call_store known) = Some (n, s') ∧
    n = length (List.filter (λ j, geb (elem known 2) (elem known j)) [0; 1; 5]) ∧
    n ≤ length [0; 1; 5] ∧
    s_list s' = known ∧ s_rank s' = [] ∧ s_response s' = [].
Proof.
  apply (@sort_rank_l_counts Z Z_atom 2 [0; 1; 5] (call_store known)).
  - simpl. lia.
  - repeat constructor; simpl; lia.
Defined.

(** X14.  The upper pass on any index pack: when [I] and [1+I+J] for every
    [J] of the pack index into [list], [sort_rank_u<I>] returns the number of
    [J] in the pack with [list[I] > list[1+I+J]], which is at most the size
    of the pack, and leaves [list], [rank] and [response] as they were. *)
Theorem sort_rank_u_counts {A : Type} `{!Atom A}
    (i : nat) (jseq : list nat) (s : store A) :
  i < length (s_list s) →
  Forall (λ j, 1 + i + j < length (s_list s)) jseq →
  ∃ n s', sort_rank_u i jseq s = Some (n, s') ∧
    n = length (List.filter
                  (λ k, gtb (elem (s_list s) i) (elem (s_list s) k))
                  (map (Nat.add (1 + i)) jseq)) ∧
    n ≤ length jseq ∧
    s_list s' = s_list s ∧ s_rank s' = s_rank s ∧
    s_response s' = s_response s.
Proof.
  intros Hi Hj.
  destruct (sort_rank_u_run_frame i jseq s Hi Hj) as (s' & Hrun & Hframe).
  eexists _, s'. split; [exact Hrun|]. split; [done|]. split; [|done].
  rewrite <- upper_val_filter. apply upper_val_le.
Qed.

Lemma sort_rank_u_counts_witness :
  ∃ n s', sort_rank_u 1 [0; 2] (call_store known) = Some (n, s') ∧
    n = length (List.filter (λ k, gtb (elem known 1) (elem known k))
                            (map (Nat.add (1 + 1)) [0; 2])) ∧
    n ≤ length [0; 2] ∧
    s_list s' = known ∧ s_rank s' = [] ∧ s_response s' = [].
Proof.
  apply (@sort_rank_u_counts Z Z_atom 1 [0; 2] (call_store known)).
  - simpl. lia.
  - repeat constructor; simpl; lia.
Defined.
